(** * Activation layer of the hw3 neural network (src/hw3/src/activations.cpp)

    A shallow embedding of the forward and backward activation functions
    and of the two dispatchers, together with the properties of the
    natural-language specification that can be stated over it.

    Conventions of the embedding.
    - A C++ [double] is read as a real number ([R]): [+], [-], [*], [/],
      [exp], [tanh] and [pow(.,2)] are the exact operations, and the
      comparisons [x > 0.0], [f < 0.0], [sum == 0] are decided on the exact
      values.  Rounding, overflow to infinity and NaN are therefore outside
      the model.
    - forward_softmax has a branch that exact arithmetic never takes (the
      sum of the exponentials of a row being 0), so its loops are written
      over an arbitrary arithmetic ([Arith]: [exp], [+] and [/]) and
      [forward_softmax] is their instance at the exact one.
    - [int]/[long] dimensions and loop counters are natural numbers.
    - A failed [assert] aborts the call: functions that can assert return
      [option Matrix], with [None] for the abort.
    - A [for (i = 0; i < n; i++)] loop is [for_loop n body]. *)

From Stdlib Require Import Reals List Lia Lra Arith Bool.
Import ListNotations.

Set Implicit Arguments.

(** ** Control: counted loops and aborting calls *)

(** [for (i = 0; i < n; i++) s = body i s;] *)
Fixpoint for_loop {St : Type} (n : nat) (body : nat -> St -> St) (s : St)
  : St :=
  match n with
  | O => s
  | S k => body k (for_loop k body s)
  end.

(** The same loop when the body may abort. *)
Fixpoint for_loopM {St : Type} (n : nat) (body : nat -> St -> option St)
         (s : St) : option St :=
  match n with
  | O => Some s
  | S k =>
      match for_loopM k body s with
      | Some s' => body k s'
      | None => None
      end
  end.

Definition bind {A B : Type} (c : option A) (k : A -> option B) : option B :=
  match c with
  | Some a => k a
  | None => None
  end.

(** [assert(b);] *)
Definition assert (b : bool) : option unit :=
  if b then Some tt else None.

Notation "x <- c ;; k" := (bind c (fun x => k))
  (at level 61, c at next level, right associativity).
Notation "c ;;; k" := (bind c (fun _ => k))
  (at level 61, right associativity).

(** ** The matrix collaborator (matrix.h) *)

Module Mat.

(** Modelled from the spec: matrix.h is not part of the sources.  A matrix
    is a dense, row-major, fixed-size 2D array of doubles with [rows] and
    [cols]; the buffer [data] is the row-major sequence of its elements. *)
Record Matrix : Type := mkMatrix {
  rows : nat;
  cols : nat;
  data : list R
}.

(** The buffer holds exactly [rows * cols] elements. *)
Definition wf (m : Matrix) : Prop :=
  length (data m) = rows m * cols m.

(** Write into a buffer; a position past the end (undefined behaviour in
    C++) leaves the buffer as it is. *)
Fixpoint upd (l : list R) (k : nat) (v : R) : list R :=
  match l, k with
  | [], _ => []
  | _ :: t, O => v :: t
  | h :: t, S k' => h :: upd t k' v
  end.

(** Modelled from the spec: [m.begin()[k]], read of the k-th element of the
    row-major buffer. *)
Definition at_ (m : Matrix) (k : nat) : R := nth k (data m) 0%R.

(** Modelled from the spec: [m.begin()[k] = v]. *)
Definition set_at (m : Matrix) (k : nat) (v : R) : Matrix :=
  mkMatrix (rows m) (cols m) (upd (data m) k v).

(** Modelled from the spec: [m[i][j]], element read by (row, column). *)
Definition get (m : Matrix) (i j : nat) : R := at_ m (i * cols m + j).

(** Modelled from the spec: [m[i][j] = v], element write by (row, column). *)
Definition set (m : Matrix) (i j : nat) (v : R) : Matrix :=
  set_at m (i * cols m + j) v.

(** The [r] by [c] matrix whose element (i, j) is [f i j]. *)
Definition tabulate (r c : nat) (f : nat -> nat -> R) : Matrix :=
  mkMatrix r c (flat_map (fun i => map (f i) (seq 0 c)) (seq 0 r)).

(** Modelled from the spec: [Matrix(r, c)], construction with explicit row
    and column count; the fresh matrix is zero-filled (softmax_jacobian
    only writes the diagonal and relies on it). *)
Definition zeros (r c : nat) : Matrix := tabulate r c (fun _ _ => 0%R).

(** Modelled from the spec: [m.get_row(i)], row extraction as a 1-row
    matrix. *)
Definition get_row (m : Matrix) (i : nat) : Matrix :=
  tabulate 1 (cols m) (fun _ j => get m i j).

(** Modelled from the spec: [m.transpose()]. *)
Definition transpose (m : Matrix) : Matrix :=
  tabulate (cols m) (rows m) (fun i j => get m j i).

(** The two matrices have identical dimensions. *)
Definition same_size (a b : Matrix) : bool :=
  (rows a =? rows b) && (cols a =? cols b).

(** Modelled from the spec: [assert_same_size(a, b);], a mismatch is a
    fatal precondition violation. *)
Definition assert_same_size (a b : Matrix) : option unit :=
  assert (same_size a b).

(** [sum_{k < n} f k], accumulated from 0 in increasing k. *)
Definition sum_upto (n : nat) (f : nat -> R) : R :=
  for_loop n (fun k acc => (acc + f k)%R) 0%R.

(** Modelled from the spec: [a * b], matrix multiplication; the inner
    dimensions must agree. *)
Definition mmul (a b : Matrix) : option Matrix :=
  assert (cols a =? rows b) ;;;
  Some (tabulate (rows a) (cols b)
          (fun i j => sum_upto (cols a) (fun k => (get a i k * get b k j)%R))).

(** Modelled from the spec: [a - b], matrix subtraction; the dimensions
    must agree. *)
Definition msub (a b : Matrix) : option Matrix :=
  assert_same_size a b ;;;
  Some (tabulate (rows a) (cols a) (fun i j => (get a i j - get b i j)%R)).

End Mat.

Import Mat.

(** Modelled from the spec: the [Activation] enumeration of neural.h, the
    closed set of activation kinds. *)
Inductive Activation : Type :=
  | LINEAR | LOGISTIC | TANH | RELU | LRELU | SOFTMAX.

Definition Activation_eqb (a b : Activation) : bool :=
  match a, b with
  | LINEAR, LINEAR | LOGISTIC, LOGISTIC | TANH, TANH
  | RELU, RELU | LRELU, LRELU | SOFTMAX, SOFTMAX => true
  | _, _ => false
  end.

(** ** The activation functions, in source order *)

Section Activations.

Local Open Scope R_scope.

Definition forward_linear (matrix : Matrix) : Matrix :=
  let activated := matrix in
  activated.

Definition backward_linear (out prev_grad : Matrix) : option Matrix :=
  assert_same_size prev_grad out ;;;
  let grad := prev_grad in
  Some grad.

Definition forward_logistic (matrix : Matrix) : Matrix :=
  let activated := matrix in
  for_loop (rows activated * cols activated) (fun i activated =>
    let x := at_ activated i in
    let fx := 1 / (1 + exp (-1 * x)) in
    set_at activated i fx) activated.

Definition backward_logistic (out prev_grad : Matrix) : option Matrix :=
  assert_same_size prev_grad out ;;;
  let grad := prev_grad in
  Some (for_loop (rows grad * cols grad) (fun i grad =>
    let next := at_ grad i in
    let f := at_ out i in
    let fdot := f * (1 - f) in
    set_at grad i (next * fdot)) grad).

Definition forward_tanh (matrix : Matrix) : Matrix :=
  let activated := matrix in
  for_loop (rows activated * cols activated) (fun i activated =>
    let x := at_ activated i in
    let fx := tanh x in
    set_at activated i fx) activated.

Definition backward_tanh (out prev_grad : Matrix) : option Matrix :=
  assert_same_size prev_grad out ;;;
  let grad := prev_grad in
  Some (for_loop (rows grad * cols grad) (fun i grad =>
    let next := at_ grad i in
    let f := at_ out i in
    let fdot := 1 - f ^ 2 in
    set_at grad i (next * fdot)) grad).

Definition forward_relu (matrix : Matrix) : Matrix :=
  let activated := matrix in
  for_loop (rows activated * cols activated) (fun i activated =>
    let x := at_ activated i in
    let fx := if Rlt_dec 0 x then x else 0 in
    set_at activated i fx) activated.

Definition backward_relu (out prev_grad : Matrix) : option Matrix :=
  assert_same_size prev_grad out ;;;
  let grad := prev_grad in
  Some (for_loop (rows grad * cols grad) (fun i grad =>
    let next := at_ grad i in
    let f := at_ out i in
    let fdot := if Rlt_dec f 0 then 0 else 1 in
    set_at grad i (next * fdot)) grad).

Definition forward_lrelu (matrix : Matrix) : Matrix :=
  let activated := matrix in
  for_loop (rows activated * cols activated) (fun i activated =>
    let x := at_ activated i in
    let fx := if Rlt_dec 0 x then x else 0.01 * x in
    set_at activated i fx) activated.

Definition backward_lrelu (out prev_grad : Matrix) : option Matrix :=
  assert_same_size prev_grad out ;;;
  let grad := prev_grad in
  Some (for_loop (rows grad * cols grad) (fun i grad =>
    let next := at_ grad i in
    let f := at_ out i in
    let fdot := if Rlt_dec f 0 then 0.01 else 1 in
    set_at grad i (next * fdot)) grad).

(** The arithmetic of [double] that forward_softmax relies on: the
    library [exp], [+=] and [/].  The loops of forward_softmax are written
    over an arbitrary such arithmetic, so that what is proved of them
    holds for rounded operations as well as for exact ones: a rounded
    [exp] returns 0 far enough on the negative side, and the sum of a row
    can then be exactly 0. *)
Record Arith : Type := mkArith {
  a_exp : R -> R;
  a_add : R -> R -> R;
  a_div : R -> R -> R
}.

(** The exact operations on real numbers. *)
Definition exact_arith : Arith := mkArith exp Rplus Rdiv.

(** First inner loop of forward_softmax on row [i]: exponentiate in place
    and accumulate the sum. *)
Definition softmax_exp_row (A : Arith) (i : nat) (st : Matrix * R)
  : Matrix * R :=
  for_loop (cols (fst st)) (fun j st =>
    let activated := fst st in
    let sum := snd st in
    let x := get activated i j in
    let fx := a_exp A x in
    let sum := a_add A sum fx in
    (set activated i j fx, sum)) st.

(** Second inner loop of forward_softmax on row [i]: divide by the sum,
    or write 0 when the sum is 0. *)
Definition softmax_div_row (A : Arith) (i : nat) (sum : R)
           (activated : Matrix) : Matrix :=
  for_loop (cols activated) (fun j activated =>
    let x := get activated i j in
    let fx := if Req_dec_T sum 0 then 0 else a_div A x sum in
    set activated i j fx) activated.

(** forward_softmax, over the arithmetic [A]. *)
Definition forward_softmax_in (A : Arith) (matrix : Matrix) : Matrix :=
  let activated := matrix in
  for_loop (rows activated) (fun i activated =>
    let sum := 0 in
    let st := softmax_exp_row A i (activated, sum) in
    softmax_div_row A i (snd st) (fst st)) activated.

(** forward_softmax in exact arithmetic, as the other functions are
    read. *)
Definition forward_softmax (matrix : Matrix) : Matrix :=
  forward_softmax_in exact_arith matrix.

Definition softmax_jacobian (out_row : Matrix) : option Matrix :=
  assert (rows out_row =? 1) ;;;
  let jacobian := zeros (cols out_row) (cols out_row) in
  let jacobian :=
    for_loop (cols out_row) (fun i jacobian =>
      for_loop (cols out_row) (fun j jacobian =>
        if i =? j then set jacobian i j (get out_row 0 j) else jacobian)
        jacobian) jacobian in
  outer <- mmul (transpose out_row) out_row ;;
  jacobian <- msub jacobian outer ;;
  assert (rows jacobian =? cols out_row) ;;;
  assert (cols jacobian =? cols out_row) ;;;
  Some jacobian.

Definition backward_softmax (out prev_grad : Matrix) : option Matrix :=
  assert_same_size prev_grad out ;;;
  let grad := prev_grad in
  for_loopM (rows out) (fun i grad =>
    jacobian <- softmax_jacobian (get_row out i) ;;
    let row_grad := get_row prev_grad i in
    product <- mmul row_grad jacobian ;;
    Some (for_loop (cols out) (fun j grad =>
            set grad i j (get product 0 j)) grad)) grad.

Definition forward_activate_matrix (matrix : Matrix) (a : Activation)
  : option Matrix :=
  if Activation_eqb a LINEAR then Some (forward_linear matrix)
  else if Activation_eqb a LOGISTIC then Some (forward_logistic matrix)
  else if Activation_eqb a TANH then Some (forward_tanh matrix)
  else if Activation_eqb a RELU then Some (forward_relu matrix)
  else if Activation_eqb a LRELU then Some (forward_lrelu matrix)
  else if Activation_eqb a SOFTMAX then Some (forward_softmax matrix)
  else assert false ;;; None.

Definition backward_activate_matrix (out grad : Matrix) (a : Activation)
  : option Matrix :=
  if Activation_eqb a LINEAR then backward_linear out grad
  else if Activation_eqb a LOGISTIC then backward_logistic out grad
  else if Activation_eqb a TANH then backward_tanh out grad
  else if Activation_eqb a RELU then backward_relu out grad
  else if Activation_eqb a LRELU then backward_lrelu out grad
  else if Activation_eqb a SOFTMAX then backward_softmax out grad
  else assert false ;;; None.

End Activations.

(** ** Specification-side notions *)

(** The Kronecker delta of the Jacobian formula. *)
Definition delta (i j : nat) : R := if i =? j then 1%R else 0%R.

(** [diag(out_row)]: the square matrix with the row on its diagonal. *)
Definition diag (out_row : Matrix) : Matrix :=
  tabulate (cols out_row) (cols out_row)
    (fun i j => if i =? j then get out_row 0 j else 0%R).

(** [sum = e[0] + ... + e[C-1]] with [e[j] = exp(x[j])], for row [i] of
    [m]: the sum of the exponentials of the raw elements, with no shift
    by the row maximum. *)
Definition row_exp_sum (m : Matrix) (i : nat) : R :=
  sum_upto (cols m) (fun j => exp (get m i j)).

(** The same sum as the code accumulates it over the arithmetic [A]:
    from 0, adding [exp(x[j])] for increasing [j]. *)
Definition row_exp_sum_in (A : Arith) (m : Matrix) (i : nat) : R :=
  for_loop (cols m) (fun j acc => a_add A acc (a_exp A (get m i j))) 0%R.

(** The sum of the elements of row [i]. *)
Definition row_sum (m : Matrix) (i : nat) : R :=
  sum_upto (cols m) (fun j => get m i j).

(** ** Sample data *)

(** The 1 by 3 matrix holding the row [a, b, c]. *)
Definition row3 (a b c : R) : Matrix := mkMatrix 1 3 [a; b; c].

(** An arithmetic whose [exp] underflows: it returns 0 below -745, as a
    rounded exponential does far enough on the negative side, and is
    exact elsewhere. *)
Definition underflow_arith : Arith :=
  mkArith (fun x => if Rlt_dec x (-745) then 0%R else exp x) Rplus Rdiv.

(** ** Loop invariants *)

(** The step shared by the elementwise loops: buffer position [k] is
    rewritten from its own current value. *)
Definition elementwise_step (F : nat -> R -> R) (k : nat) (m : Matrix)
  : Matrix :=
  set_at m k (F k (at_ m k)).

(** [backward_softmax] after its first [k] rows: the gradient keeps the
    shape of [prev_grad] and each finished row holds the product of the
    gradient row with the Jacobian of the output row. *)
Definition softmax_rows_done (out prev_grad : Matrix) (k : nat)
           (grad : Matrix) : Prop :=
  wf grad /\ rows grad = rows prev_grad /\ cols grad = cols prev_grad /\
  forall a, a < k ->
    exists J product,
      softmax_jacobian (get_row out a) = Some J /\
      mmul (get_row prev_grad a) J = Some product /\
      forall b, b < cols out -> get grad a b = get product 0 b.

(** [forward_softmax] after its first [k] rows: the finished rows are
    normalised, the others still hold the input. *)
Definition softmax_rows_normalised (A : Arith) (M : Matrix) (k : nat)
           (m : Matrix) : Prop :=
  wf m /\ rows m = rows M /\ cols m = cols M /\
  forall a b, a < rows M -> b < cols M ->
    get m a b
    = if a <? k
      then (if Req_dec_T (row_exp_sum_in A M a) 0 then 0%R
            else a_div A (a_exp A (get M a b)) (row_exp_sum_in A M a))
      else get M a b.

(** ** Evaluation on concrete matrices *)

Ltac run_loops :=
  cbv beta iota zeta delta
    [forward_relu backward_relu assert_same_size same_size assert bind
     for_loop at_ set_at upd nth data rows cols row3
     Nat.mul Nat.add Nat.eqb andb].

Ltac decide_comparisons :=
  repeat match goal with
         | |- context [Rlt_dec ?a ?b] => destruct (Rlt_dec a b); try lra
         end.

(** ** Loop counters *)

Lemma ltb_succ_diag n : (n <? S n) = true.
Proof. apply Nat.ltb_lt. lia. Qed.

Lemma ltb_succ_neq a n : a <> n -> (a <? S n) = (a <? n).
Proof.
  intros H. destruct (a <? n) eqn:E.
  - apply Nat.ltb_lt in E. apply Nat.ltb_lt. lia.
  - apply Nat.ltb_ge in E. apply Nat.ltb_ge. lia.
Qed.

(** ** Loops *)

(** Invariant rule for a counted loop. *)
Lemma for_loop_inv (St : Type) (P : nat -> St -> Prop)
      (body : nat -> St -> St) :
  forall n s,
    P 0 s ->
    (forall k t, k < n -> P k t -> P (S k) (body k t)) ->
    P n (for_loop n body s).
Proof.
  induction n as [|n IH]; intros s H0 Hstep; simpl.
  - exact H0.
  - apply Hstep; [lia|]. apply IH; [exact H0|].
    intros k t Hk. apply Hstep. lia.
Qed.

(** The bodies of two loops need to agree only below the bound. *)
Lemma for_loop_ext (St : Type) (f g : nat -> St -> St) :
  forall n s,
    (forall k t, k < n -> f k t = g k t) ->
    for_loop n f s = for_loop n g s.
Proof.
  induction n as [|n IH]; intros s H; simpl; [reflexivity|].
  rewrite (IH s) by (intros; apply H; lia). apply H. lia.
Qed.

(** A loop whose body never aborts under an invariant returns a state. *)
Lemma for_loopM_inv (St : Type) (P : nat -> St -> Prop)
      (body : nat -> St -> option St) :
  forall n s,
    P 0 s ->
    (forall k t, k < n -> P k t ->
                 exists t', body k t = Some t' /\ P (S k) t') ->
    exists s', for_loopM n body s = Some s' /\ P n s'.
Proof.
  induction n as [|n IH]; intros s H0 Hstep; simpl.
  - exists s. split; [reflexivity | exact H0].
  - destruct (IH s H0) as [t [Ht Pt]].
    { intros k t Hk. apply Hstep. lia. }
    rewrite Ht. apply Hstep; [lia | exact Pt].
Qed.

(** ** Buffers *)

Lemma length_upd (l : list R) : forall k v, length (upd l k v) = length l.
Proof.
  induction l as [|h t IH]; intros [|k] v; simpl; auto.
Qed.

Lemma nth_upd_eq (l : list R) :
  forall k v d, k < length l -> nth k (upd l k v) d = v.
Proof.
  induction l as [|h t IH]; intros [|k] v d Hk; simpl in *; try lia; auto.
  apply IH. lia.
Qed.

Lemma nth_upd_neq (l : list R) :
  forall k k' v d, k <> k' -> nth k' (upd l k v) d = nth k' l d.
Proof.
  induction l as [|h t IH]; intros [|k] [|k'] v d Hk; simpl; auto; try lia.
Qed.

Lemma upd_same (l : list R) : forall k d, upd l k (nth k l d) = l.
Proof.
  induction l as [|h t IH]; intros [|k] d; simpl; auto.
  f_equal. apply IH.
Qed.

Lemma upd_past_end (l : list R) :
  forall k v, length l <= k -> upd l k v = l.
Proof.
  induction l as [|h t IH]; intros [|k] v Hk; simpl in *; auto; try lia.
  f_equal. apply IH. lia.
Qed.

(** ** Matrices *)

Lemma cols_set_at m k v : cols (set_at m k v) = cols m.
Proof. reflexivity. Qed.

Lemma wf_set_at m k v : wf m -> wf (set_at m k v).
Proof. unfold wf, set_at; simpl. now rewrite length_upd. Qed.

Lemma wf_set m i j v : wf m -> wf (set m i j v).
Proof. apply wf_set_at. Qed.

Lemma at_set_at_eq m k v : k < length (data m) -> at_ (set_at m k v) k = v.
Proof. intros H. unfold at_, set_at; simpl. now apply nth_upd_eq. Qed.

Lemma at_set_at_neq m k k' v : k <> k' -> at_ (set_at m k v) k' = at_ m k'.
Proof. intros H. unfold at_, set_at; simpl. now apply nth_upd_neq. Qed.

(** Row-major positions of in-range (row, column) pairs. *)
Lemma index_in_range r c i j : i < r -> j < c -> i * c + j < r * c.
Proof.
  intros Hi Hj.
  assert (S i * c <= r * c) by (apply Nat.mul_le_mono_r; lia).
  simpl in *. lia.
Qed.

Lemma index_inj c i j a b :
  j < c -> b < c -> i * c + j = a * c + b -> i = a /\ j = b.
Proof.
  intros Hj Hb E.
  assert (Hia : i = a).
  { destruct (Nat.lt_trichotomy i a) as [H | [H | H]];
      [exfalso | exact H | exfalso].
    - assert (S i * c <= a * c) by (apply Nat.mul_le_mono_r; lia).
      simpl in *. lia.
    - assert (S a * c <= i * c) by (apply Nat.mul_le_mono_r; lia).
      simpl in *. lia. }
  subst a. split; [reflexivity | lia].
Qed.

Lemma get_set_eq m i j v :
  wf m -> i < rows m -> j < cols m -> get (set m i j v) i j = v.
Proof.
  intros W Hi Hj. unfold get, set. rewrite cols_set_at.
  apply at_set_at_eq. rewrite W. now apply index_in_range.
Qed.

Lemma get_set_neq m i j a b v :
  j < cols m -> b < cols m -> (i, j) <> (a, b) ->
  get (set m i j v) a b = get m a b.
Proof.
  intros Hj Hb Hne. unfold get, set. rewrite cols_set_at.
  apply at_set_at_neq. intros E.
  destruct (index_inj i a Hj Hb E) as [-> ->]. now apply Hne.
Qed.

Lemma nth_flat_map_rows (c : nat) (f : nat -> nat -> R) :
  forall r s i j d, i < r -> j < c ->
    nth (i * c + j) (flat_map (fun i => map (f i) (seq 0 c)) (seq s r)) d
    = f (s + i) j.
Proof.
  induction r as [|r IH]; intros s i j d Hi Hj; [lia|].
  simpl. destruct i as [|i].
  - rewrite app_nth1 by (rewrite length_map, length_seq; lia).
    simpl.
    rewrite (nth_indep _ d (f s 0)) by (rewrite length_map, length_seq; lia).
    rewrite map_nth, seq_nth by lia. f_equal; lia.
  - rewrite app_nth2 by (rewrite length_map, length_seq; lia).
    rewrite length_map, length_seq.
    replace (S i * c + j - c) with (i * c + j) by lia.
    rewrite IH by lia. f_equal; lia.
Qed.

Lemma length_flat_map_rows (c : nat) (f : nat -> nat -> R) :
  forall r s,
    length (flat_map (fun i => map (f i) (seq 0 c)) (seq s r)) = r * c.
Proof.
  induction r as [|r IH]; intros s; simpl; [reflexivity|].
  now rewrite length_app, length_map, length_seq, IH.
Qed.

Lemma wf_tabulate r c f : wf (tabulate r c f).
Proof. unfold wf, tabulate; simpl. apply length_flat_map_rows. Qed.

Lemma get_tabulate r c f i j :
  i < r -> j < c -> get (tabulate r c f) i j = f i j.
Proof.
  intros Hi Hj. unfold get, at_, tabulate; simpl.
  now rewrite nth_flat_map_rows.
Qed.

Lemma same_size_true a b :
  same_size a b = true <-> rows a = rows b /\ cols a = cols b.
Proof.
  unfold same_size. rewrite andb_true_iff, !Nat.eqb_eq. tauto.
Qed.

(** Two well-formed matrices with the same shape and the same elements are
    the same matrix. *)
Lemma matrix_ext a b :
  wf a -> wf b -> rows a = rows b -> cols a = cols b ->
  (forall i j, i < rows a -> j < cols a -> get a i j = get b i j) ->
  a = b.
Proof.
  destruct a as [ra ca da], b as [rb cb db]; unfold wf, get, at_; simpl.
  intros Wa Wb -> -> H. f_equal.
  apply (nth_ext _ _ 0%R 0%R); [congruence|].
  intros k Hk. rewrite Wa in Hk.
  assert (Hc : 0 < cb) by (destruct cb; [lia | lia]).
  assert (Ek : k = k / cb * cb + k mod cb)
    by (rewrite (Nat.mul_comm _ cb); apply Nat.div_mod_eq).
  rewrite Ek. apply H.
  - apply Nat.Div0.div_lt_upper_bound. lia.
  - apply Nat.mod_upper_bound. lia.
Qed.

(** ** Elementwise loops over the row-major buffer *)

Section FlatLoop.

Variable F : nat -> R -> R.

Lemma flat_loop_shape n m :
  rows (for_loop n (elementwise_step F) m) = rows m /\
  cols (for_loop n (elementwise_step F) m) = cols m /\
  length (data (for_loop n (elementwise_step F) m)) = length (data m).
Proof.
  induction n as [|n [IHr [IHc IHl]]]; simpl; [auto|].
  repeat split; [exact IHr | exact IHc |].
  rewrite <- IHl. apply length_upd.
Qed.

Lemma flat_loop_at n m k :
  at_ (for_loop n (elementwise_step F) m) k =
  if (k <? n) && (k <? length (data m)) then F k (at_ m k) else at_ m k.
Proof.
  induction n as [|n IH]; cbn [for_loop]; [reflexivity|].
  destruct (flat_loop_shape n m) as [_ [_ Hlen]].
  unfold elementwise_step at 1.
  destruct (Nat.eq_dec n k) as [-> | Hne].
  - rewrite IH. rewrite Nat.ltb_irrefl. cbn [andb].
    rewrite ltb_succ_diag.
    cbn [andb]. destruct (k <? length (data m)) eqn:Hk.
    + apply Nat.ltb_lt in Hk. apply at_set_at_eq. lia.
    + apply Nat.ltb_ge in Hk. unfold set_at, at_ at 1. cbn [data].
      rewrite upd_past_end by lia.
      apply (eq_trans (IH)). now rewrite Nat.ltb_irrefl.
  - rewrite at_set_at_neq by exact Hne. rewrite IH.
    now rewrite ltb_succ_neq by lia.
Qed.

(** On a well-formed matrix the full loop rewrites element (i, j). *)
Lemma flat_loop_get m i j :
  wf m -> i < rows m -> j < cols m ->
  get (for_loop (rows m * cols m) (elementwise_step F) m) i j =
  F (i * cols m + j) (get m i j).
Proof.
  intros W Hi Hj. unfold get.
  destruct (flat_loop_shape (rows m * cols m) m) as [_ [-> _]].
  rewrite flat_loop_at, W.
  pose proof (index_in_range Hi Hj) as Hlt.
  apply Nat.ltb_lt in Hlt. now rewrite Hlt.
Qed.

End FlatLoop.

(** ** Elementwise backward passes *)

Section ElementwiseBackward.

(** The loop of an elementwise backward pass with local derivative [fdot],
    evaluated on the activated value. *)
Lemma backward_loop_get (fdot : R -> R) (out prev_grad : Matrix) i j :
  wf prev_grad -> same_size prev_grad out = true ->
  i < rows out -> j < cols out ->
  get (for_loop (rows prev_grad * cols prev_grad)
         (fun k grad => set_at grad k (at_ grad k * fdot (at_ out k))%R)
         prev_grad) i j
  = (get prev_grad i j * fdot (get out i j))%R.
Proof.
  intros W HS Hi Hj. apply same_size_true in HS. destruct HS as [Hr Hc].
  rewrite (flat_loop_get (fun k x => x * fdot (at_ out k))%R);
    [| exact W | lia | lia].
  unfold get. now rewrite Hc.
Qed.

Lemma backward_loop_shape (G : nat -> Matrix -> R) n (m : Matrix) :
  rows (for_loop n (fun k grad => set_at grad k (G k grad)) m) = rows m /\
  cols (for_loop n (fun k grad => set_at grad k (G k grad)) m) = cols m.
Proof.
  apply (for_loop_inv (fun _ t => rows t = rows m /\ cols t = cols m)).
  - auto.
  - intros k t _ H. exact H.
Qed.

(** C4: for same-shape [out] and [prev_grad], each elementwise backward
    function returns a gradient of the same shape with
    [grad[i][j] = prev_grad[i][j] * f'(out[i][j])], where f' is computed
    from the activated value: [out * (1 - out)] for Logistic,
    [1 - out^2] for Tanh, [0.01] when [out < 0] and [1] otherwise for
    LeakyReLU; [backward_linear] returns [prev_grad] unchanged (f' = 1). *)
Theorem backward_elementwise_derivative (out prev_grad : Matrix) :
  wf prev_grad -> same_size prev_grad out = true ->
  (exists grad, backward_logistic out prev_grad = Some grad /\
     rows grad = rows out /\ cols grad = cols out /\
     forall i j, i < rows out -> j < cols out ->
       get grad i j
       = (get prev_grad i j * (get out i j * (1 - get out i j)))%R)
  /\
  (exists grad, backward_tanh out prev_grad = Some grad /\
     rows grad = rows out /\ cols grad = cols out /\
     forall i j, i < rows out -> j < cols out ->
       get grad i j = (get prev_grad i j * (1 - (get out i j) ^ 2))%R)
  /\
  (exists grad, backward_lrelu out prev_grad = Some grad /\
     rows grad = rows out /\ cols grad = cols out /\
     forall i j, i < rows out -> j < cols out ->
       get grad i j
       = (get prev_grad i j *
          (if Rlt_dec (get out i j) 0 then 0.01 else 1))%R)
  /\
  (backward_linear out prev_grad = Some prev_grad /\
     forall i j, get prev_grad i j = (get prev_grad i j * 1)%R).
Proof.
  intros W HS.
  pose proof HS as HS'. apply same_size_true in HS'. destruct HS' as [Hr Hc].
  unfold backward_logistic, backward_tanh, backward_lrelu, backward_linear,
    assert_same_size.
  rewrite HS. cbn [assert bind].
  repeat split;
    try (eexists; split; [reflexivity|];
         split; [|split];
         [ rewrite <- Hr; apply backward_loop_shape
         | rewrite <- Hc; apply backward_loop_shape
         | intros i j Hi Hj ]).
  - exact (backward_loop_get (fun f => f * (1 - f))%R out W HS Hi Hj).
  - exact (backward_loop_get (fun f => 1 - f ^ 2)%R out W HS Hi Hj).
  - exact (backward_loop_get (fun f => if Rlt_dec f 0 then 0.01 else 1)%R
             out W HS Hi Hj).
  - intros i j. ring.
Qed.

Lemma backward_elementwise_derivative_witness :
  wf (row3 1 1 1) /\ same_size (row3 1 1 1) (row3 (-2) 0 2) = true /\
  backward_linear (row3 (-2) 0 2) (row3 1 1 1) = Some (row3 1 1 1).
Proof.
  split; [reflexivity | split; [reflexivity|]].
  apply (@backward_elementwise_derivative (row3 (-2) 0 2) (row3 1 1 1));
    reflexivity.
Defined.

End ElementwiseBackward.

(** ** ReLU *)

Section Relu.

(** Every element written by [forward_relu] is non-negative. *)
Lemma forward_relu_nonneg (M : Matrix) k :
  k < rows M * cols M -> ~ (at_ (forward_relu M) k < 0)%R.
Proof.
  intros Hk. unfold forward_relu.
  rewrite (flat_loop_at (fun _ x => if Rlt_dec 0 x then x else 0%R)).
  apply Nat.ltb_lt in Hk. rewrite Hk. simpl.
  destruct (k <? length (data M)) eqn:E.
  - destruct (Rlt_dec 0 (at_ M k)); lra.
  - apply Nat.ltb_ge in E. unfold at_. rewrite nth_overflow by exact E. lra.
Qed.

Lemma forward_relu_shape (M : Matrix) :
  rows (forward_relu M) = rows M /\ cols (forward_relu M) = cols M.
Proof. apply backward_loop_shape. Qed.

(** C10: for [M] and [g] of the same shape,
    [backward_relu (forward_relu M) g] is [g] itself: the output of
    [forward_relu] is nowhere negative and [backward_relu] gives
    derivative 1 to every activated value that is not negative, so no
    gradient entry is zeroed, also where [M] was negative. *)
Theorem backward_relu_after_forward_relu (M g : Matrix) :
  same_size g M = true ->
  backward_relu (forward_relu M) g = Some g.
Proof.
  intros HS. apply same_size_true in HS. destruct HS as [Hr Hc].
  destruct (forward_relu_shape M) as [Fr Fc].
  unfold backward_relu, assert_same_size, same_size.
  rewrite Fr, Fc, Hr, Hc, !Nat.eqb_refl. cbn [andb assert bind].
  f_equal. rewrite <- Hr, <- Hc.
  apply (for_loop_inv (fun _ t => t = g)); [reflexivity|].
  intros k t Hk ->. cbv zeta.
  destruct (Rlt_dec (at_ (forward_relu M) k) 0) as [Hneg | _].
  - exfalso. apply (@forward_relu_nonneg M k); [lia | exact Hneg].
  - rewrite Rmult_1_r. unfold set_at, at_. rewrite upd_same.
    now destruct g.
Qed.

Lemma backward_relu_after_forward_relu_witness :
  same_size (row3 1 1 1) (row3 (-2) 0 2) = true /\
  backward_relu (forward_relu (row3 (-2) 0 2)) (row3 1 1 1)
  = Some (row3 1 1 1).
Proof.
  split; [reflexivity|].
  apply (backward_relu_after_forward_relu (row3 (-2) 0 2) (row3 1 1 1)).
  reflexivity.
Defined.

Lemma forward_relu_scenario : forward_relu (row3 (-2) 0 2) = row3 0 0 2.
Proof.
  run_loops. decide_comparisons. reflexivity.
Qed.

Lemma backward_relu_scenario_activated :
  backward_relu (row3 0 0 2) (row3 1 1 1) = Some (row3 1 1 1).
Proof.
  run_loops. decide_comparisons. do 2 f_equal. repeat (f_equal; try lra).
Qed.

Lemma backward_relu_scenario_raw :
  backward_relu (row3 (-2) 0 2) (row3 1 1 1) = Some (row3 0 1 1).
Proof.
  run_loops. decide_comparisons. do 2 f_equal. repeat (f_equal; try lra).
Qed.

(** C5, as stated, fails on its scenario: on the input row [-2, 0, 2]
    the forward pass gives [0, 0, 2], and the backward pass on that
    activated output with [prev_grad = [1, 1, 1]] returns [1, 1, 1], not
    [0, 1, 1]. *)
Lemma relu_scenario_counterexample :
  forward_relu (row3 (-2) 0 2) = row3 0 0 2 /\
  backward_relu (forward_relu (row3 (-2) 0 2)) (row3 1 1 1)
  = Some (row3 1 1 1) /\
  backward_relu (forward_relu (row3 (-2) 0 2)) (row3 1 1 1)
  <> Some (row3 0 1 1).
Proof.
  split; [exact forward_relu_scenario|].
  rewrite forward_relu_scenario, backward_relu_scenario_activated.
  split; [reflexivity|].
  unfold row3. intros H. injection H as H. lra.
Qed.

(** C5, amended: [backward_relu] uses f' = 0 when [out < 0] and f' = 1
    when [out >= 0] (an activated value of exactly 0 has derivative 1); on
    the input row [-2, 0, 2] the forward pass gives [0, 0, 2], and the
    backward pass on that activated output with [prev_grad = [1, 1, 1]]
    gives [1, 1, 1]; [0, 1, 1] is what [backward_relu] gives when the row
    [-2, 0, 2] itself is passed as [out]. *)
Theorem backward_relu_boundary_convention (out prev_grad : Matrix) :
  wf prev_grad -> same_size prev_grad out = true ->
  (exists grad, backward_relu out prev_grad = Some grad /\
     rows grad = rows out /\ cols grad = cols out /\
     forall i j, i < rows out -> j < cols out ->
       ((get out i j < 0)%R -> get grad i j = (get prev_grad i j * 0)%R) /\
       ((0 <= get out i j)%R -> get grad i j = (get prev_grad i j * 1)%R))
  /\ forward_relu (row3 (-2) 0 2) = row3 0 0 2
  /\ backward_relu (forward_relu (row3 (-2) 0 2)) (row3 1 1 1)
     = Some (row3 1 1 1)
  /\ backward_relu (row3 (-2) 0 2) (row3 1 1 1) = Some (row3 0 1 1).
Proof.
  intros W HS. split; [| split; [| split]].
  - pose proof HS as HS'. apply same_size_true in HS'.
    destruct HS' as [Hr Hc].
    unfold backward_relu, assert_same_size. rewrite HS. cbn [assert bind].
    eexists. split; [reflexivity|].
    split; [rewrite <- Hr; apply backward_loop_shape|].
    split; [rewrite <- Hc; apply backward_loop_shape|].
    intros i j Hi Hj.
    rewrite (backward_loop_get (fun f => if Rlt_dec f 0 then 0 else 1)%R
               out W HS Hi Hj).
    destruct (Rlt_dec (get out i j) 0); split; intros; try reflexivity; lra.
  - exact forward_relu_scenario.
  - rewrite forward_relu_scenario. exact backward_relu_scenario_activated.
  - exact backward_relu_scenario_raw.
Qed.

Lemma backward_relu_boundary_convention_witness :
  wf (row3 1 1 1) /\ same_size (row3 1 1 1) (row3 0 0 2) = true /\
  backward_relu (forward_relu (row3 (-2) 0 2)) (row3 1 1 1)
  = Some (row3 1 1 1).
Proof.
  split; [reflexivity | split; [reflexivity|]].
  apply (@backward_relu_boundary_convention (row3 0 0 2) (row3 1 1 1));
    reflexivity.
Defined.

End Relu.

(** ** Softmax Jacobian *)

Section Jacobian.

Variable out_row : Matrix.

(** The inner loop over [j] writes at most the diagonal position of row
    [i]. *)
Lemma diag_inner_loop (i : nat) (jacobian : Matrix) n :
  for_loop n (fun j jacobian =>
                if i =? j then set jacobian i j (get out_row 0 j)
                else jacobian) jacobian
  = if i <? n then set jacobian i i (get out_row 0 i) else jacobian.
Proof.
  induction n as [|n IH]; simpl; [reflexivity|]. rewrite IH.
  destruct (Nat.eqb_spec i n) as [-> | Hne].
  - rewrite Nat.ltb_irrefl.
    rewrite ltb_succ_diag.
    reflexivity.
  - now rewrite ltb_succ_neq by exact Hne.
Qed.

(** The two nested loops amount to one pass over the diagonal. *)
Lemma diag_loops_collapse (jacobian : Matrix) :
  for_loop (cols out_row) (fun i jacobian =>
    for_loop (cols out_row) (fun j jacobian =>
      if i =? j then set jacobian i j (get out_row 0 j) else jacobian)
      jacobian) jacobian
  = for_loop (cols out_row)
      (fun i jacobian => set jacobian i i (get out_row 0 i)) jacobian.
Proof.
  apply for_loop_ext. intros k t Hk. rewrite diag_inner_loop.
  apply Nat.ltb_lt in Hk. now rewrite Hk.
Qed.

Lemma diag_pass (z : Matrix) n :
  wf z -> rows z = cols out_row -> cols z = cols out_row ->
  n <= cols out_row ->
  let d := for_loop n (fun i jacobian =>
                         set jacobian i i (get out_row 0 i)) z in
  wf d /\ rows d = cols out_row /\ cols d = cols out_row /\
  forall a b, a < cols out_row -> b < cols out_row ->
    get d a b = if (a =? b) && (a <? n) then get out_row 0 a else get z a b.
Proof.
  intros W Hr Hc. induction n as [|n IH]; intros Hn; simpl.
  - repeat split; auto. intros a b _ _. now rewrite andb_false_r.
  - destruct IH as (Wd & Rd & Cd & G); [lia|].
    set (d := for_loop n _ z) in *.
    repeat split; [now apply wf_set | exact Rd | exact Cd |].
    intros a b Ha Hb.
    destruct (Nat.eq_dec a n) as [-> | Han];
      [destruct (Nat.eq_dec b n) as [-> | Hbn]|].
    + rewrite get_set_eq by (try exact Wd; lia).
      rewrite Nat.eqb_refl.
      rewrite ltb_succ_diag.
      reflexivity.
    + rewrite get_set_neq by (try congruence; lia).
      rewrite G by lia.
      replace (n =? b) with false by (symmetry; apply Nat.eqb_neq; lia).
      reflexivity.
    + rewrite get_set_neq by (try congruence; lia).
      rewrite G by lia.
      now rewrite ltb_succ_neq by lia.
Qed.

(** The matrix the loops of [softmax_jacobian] build before the
    subtraction is [diag out_row]. *)
Lemma diag_loops_build_diag :
  for_loop (cols out_row) (fun i jacobian =>
    for_loop (cols out_row) (fun j jacobian =>
      if i =? j then set jacobian i j (get out_row 0 j) else jacobian)
      jacobian) (zeros (cols out_row) (cols out_row))
  = diag out_row.
Proof.
  rewrite diag_loops_collapse.
  destruct (@diag_pass (zeros (cols out_row) (cols out_row)) (cols out_row))
    as (Wd & Rd & Cd & G);
    try reflexivity; try apply wf_tabulate; try lia.
  apply matrix_ext; try assumption; try apply wf_tabulate.
  rewrite Rd, Cd. intros i j Hi Hj. rewrite G by assumption.
  unfold diag, zeros. rewrite !get_tabulate by assumption.
  apply Nat.ltb_lt in Hi. rewrite Hi, andb_true_r.
  destruct (Nat.eqb_spec i j) as [-> |]; reflexivity.
Qed.

(** What [softmax_jacobian] returns on a one-row matrix, entry by entry
    as the code computes it. *)
Lemma softmax_jacobian_runs :
  rows out_row = 1 ->
  exists outer jacobian,
    mmul (transpose out_row) out_row = Some outer /\
    msub (diag out_row) outer = Some jacobian /\
    softmax_jacobian out_row = Some jacobian /\
    wf jacobian /\
    rows jacobian = cols out_row /\ cols jacobian = cols out_row /\
    forall i j, i < cols out_row -> j < cols out_row ->
      get jacobian i j
      = ((if i =? j then get out_row 0 j else 0)
         - (0 + get out_row 0 i * get out_row 0 j))%R.
Proof.
  intros H1.
  set (outer := tabulate (cols out_row) (cols out_row) (fun i j =>
         sum_upto 1 (fun k =>
           (get (transpose out_row) i k * get out_row k j)%R))).
  set (jacobian := tabulate (cols out_row) (cols out_row) (fun i j =>
         (get (diag out_row) i j - get outer i j)%R)).
  assert (Hmul : mmul (transpose out_row) out_row = Some outer).
  { unfold mmul. cbn [rows cols transpose tabulate].
    now rewrite H1. }
  assert (Hsub : msub (diag out_row) outer = Some jacobian).
  { unfold msub, assert_same_size, same_size.
    cbn [rows cols diag outer tabulate].
    now rewrite !Nat.eqb_refl. }
  exists outer, jacobian.
  split; [exact Hmul|]. split; [exact Hsub|].
  split.
  { unfold softmax_jacobian. rewrite diag_loops_build_diag.
    rewrite H1, Hmul. cbn [Nat.eqb assert bind]. rewrite Hsub.
    cbn [bind rows cols jacobian tabulate].
    now rewrite !Nat.eqb_refl. }
  split; [apply wf_tabulate|]. split; [reflexivity|]. split; [reflexivity|].
  intros i j Hi Hj. unfold jacobian. rewrite get_tabulate by assumption.
  unfold diag at 1. rewrite get_tabulate by assumption.
  unfold outer. rewrite get_tabulate by assumption.
  unfold sum_upto. cbn [for_loop].
  unfold transpose. rewrite get_tabulate; [reflexivity | exact Hi | lia].
Qed.

End Jacobian.

(** C1: on a 1 by C matrix [out_row], [softmax_jacobian] returns a C by C
    matrix [J] with [J[i][j] = out_row[j] * (delta i j - out_row[i])];
    equivalently [J] is [diag out_row] minus the product of the transpose
    of [out_row] with [out_row]. *)
Theorem softmax_jacobian_formula (out_row : Matrix) :
  rows out_row = 1 ->
  exists J,
    softmax_jacobian out_row = Some J /\
    wf J /\ rows J = cols out_row /\ cols J = cols out_row /\
    (forall i j, i < cols out_row -> j < cols out_row ->
       get J i j = (get out_row 0 j * (delta i j - get out_row 0 i))%R) /\
    (exists outer,
       mmul (transpose out_row) out_row = Some outer /\
       msub (diag out_row) outer = Some J).
Proof.
  intros H1.
  destruct (softmax_jacobian_runs out_row H1)
    as (outer & J & Hmul & Hsub & HJ & W & Hr & Hc & G).
  exists J. repeat split; try assumption.
  - intros i j Hi Hj. rewrite (G i j Hi Hj). unfold delta.
    destruct (Nat.eqb_spec i j) as [-> |]; ring.
  - exists outer. split; assumption.
Qed.

Lemma softmax_jacobian_formula_witness :
  rows (row3 1 2 3) = 1 /\
  exists J, softmax_jacobian (row3 1 2 3) = Some J /\ rows J = 3.
Proof.
  split; [reflexivity|].
  destruct (@softmax_jacobian_formula (row3 1 2 3) eq_refl)
    as (J & HJ & _ & Hr & _).
  exists J. split; [exact HJ | exact Hr].
Defined.

(** C8: on a 1 by C activated row [r], the Jacobian computed by
    [softmax_jacobian] is symmetric, [J[i][j] = J[j][i]], and its diagonal
    entries are [r[i] * (1 - r[i])]. *)
Theorem softmax_jacobian_symmetric (r : Matrix) :
  rows r = 1 ->
  exists J,
    softmax_jacobian r = Some J /\
    (forall i j, i < cols r -> j < cols r -> get J i j = get J j i) /\
    (forall i, i < cols r ->
       get J i i = (get r 0 i * (1 - get r 0 i))%R).
Proof.
  intros H1.
  destruct (softmax_jacobian_runs r H1)
    as (outer & J & _ & _ & HJ & _ & _ & _ & G).
  exists J. split; [exact HJ|]. split.
  - intros i j Hi Hj.
    destruct (Nat.eq_dec i j) as [-> | Hne]; [reflexivity|].
    rewrite (G i j Hi Hj), (G j i Hj Hi).
    replace (i =? j) with false by (symmetry; apply Nat.eqb_neq; lia).
    replace (j =? i) with false by (symmetry; apply Nat.eqb_neq; lia).
    ring.
  - intros i Hi. rewrite (G i i Hi Hi), Nat.eqb_refl. ring.
Qed.

Lemma softmax_jacobian_symmetric_witness :
  rows (row3 1 2 3) = 1 /\
  exists J, softmax_jacobian (row3 1 2 3) = Some J /\
            get J 0 2 = get J 2 0.
Proof.
  split; [reflexivity|].
  destruct (@softmax_jacobian_symmetric (row3 1 2 3) eq_refl)
    as (J & HJ & Hsym & _).
  exists J. split; [exact HJ|]. apply Hsym; simpl; lia.
Defined.

(** ** Loops over one row *)

Section RowLoop.

Variable f : nat -> R -> R.
Variable i : nat.

(** A pass over row [i] that rewrites each element from its own current
    value leaves every other row as it was. *)
Lemma row_loop_get (m : Matrix) n :
  wf m -> i < rows m -> n <= cols m ->
  let m' := for_loop n (fun j m => set m i j (f j (get m i j))) m in
  wf m' /\ rows m' = rows m /\ cols m' = cols m /\
  forall a b, a < rows m -> b < cols m ->
    get m' a b
    = if (a =? i) && (b <? n) then f b (get m a b) else get m a b.
Proof.
  intros W Hi. induction n as [|n IH]; intros Hn; simpl.
  - repeat split; auto. intros a b _ _. now rewrite andb_false_r.
  - destruct IH as (Wd & Rd & Cd & G); [lia|].
    set (d := for_loop n _ m) in *.
    repeat split; [now apply wf_set | exact Rd | exact Cd |].
    intros a b Ha Hb.
    destruct (Nat.eq_dec b n) as [-> | Hbn];
      [destruct (Nat.eq_dec a i) as [-> | Hai]|].
    + rewrite get_set_eq by (try exact Wd; lia).
      rewrite G by lia.
      rewrite Nat.eqb_refl, Nat.ltb_irrefl.
      rewrite ltb_succ_diag.
      reflexivity.
    + rewrite get_set_neq by (try congruence; lia).
      rewrite G by lia.
      replace (a =? i) with false by (symmetry; apply Nat.eqb_neq; lia).
      reflexivity.
    + rewrite get_set_neq by (try congruence; lia).
      rewrite G by lia.
      now rewrite ltb_succ_neq by lia.
Qed.

End RowLoop.

(** Row-pass loops keep the dimensions, whatever they write. *)
Lemma set_loop_shape (G : nat -> Matrix -> R) (i n : nat) (m : Matrix) :
  rows (for_loop n (fun j m => set m i j (G j m)) m) = rows m /\
  cols (for_loop n (fun j m => set m i j (G j m)) m) = cols m.
Proof.
  apply (for_loop_inv (fun _ t => rows t = rows m /\ cols t = cols m)).
  - auto.
  - intros k t _ H. exact H.
Qed.

Lemma sum_upto_ext n (g h : nat -> R) :
  (forall k, k < n -> g k = h k) -> sum_upto n g = sum_upto n h.
Proof.
  intros H. unfold sum_upto. apply for_loop_ext.
  intros k t Hk. now rewrite H.
Qed.

(** ** Softmax backward *)

Section SoftmaxBackward.

Variables out prev_grad : Matrix.
Hypothesis prev_grad_wf : wf prev_grad.
Hypothesis shapes_agree : same_size prev_grad out = true.

(** The Jacobian of row [i] and its product with the gradient row always
    exist. *)
Lemma softmax_row_product (i : nat) :
  exists J product,
    softmax_jacobian (get_row out i) = Some J /\
    mmul (get_row prev_grad i) J = Some product /\
    wf product /\ rows product = 1 /\ cols product = cols out.
Proof.
  apply same_size_true in shapes_agree. destruct shapes_agree as [Hr Hc].
  destruct (@softmax_jacobian_runs (get_row out i) eq_refl)
    as (outer & J & _ & _ & HJ & WJ & RJ & CJ & _).
  cbn [get_row tabulate cols] in RJ, CJ.
  exists J.
  eexists. split; [exact HJ|].
  unfold mmul. cbn [get_row tabulate rows cols].
  rewrite RJ, Hc, Nat.eqb_refl. cbn [assert bind].
  split; [reflexivity|].
  split; [apply wf_tabulate|]. split; [reflexivity | exact CJ].
Qed.

Lemma backward_softmax_step (k : nat) (grad : Matrix) :
  k < rows out -> softmax_rows_done out prev_grad k grad ->
  exists grad',
    (jacobian <- softmax_jacobian (get_row out k) ;;
     let row_grad := get_row prev_grad k in
     product <- mmul row_grad jacobian ;;
     Some (for_loop (cols out) (fun j grad =>
             set grad k j (get product 0 j)) grad)) = Some grad' /\
    softmax_rows_done out prev_grad (S k) grad'.
Proof.
  intros Hk (W & Rg & Cg & Done).
  pose proof shapes_agree as HS. apply same_size_true in HS.
  destruct HS as [Hr Hc].
  destruct (softmax_row_product k) as (J & product & HJ & HP & _ & _ & _).
  rewrite HJ. cbn [bind]. rewrite HP. cbn [bind].
  eexists. split; [reflexivity|].
  destruct (@row_loop_get (fun j _ => get product 0 j) k grad (cols out))
    as (W' & R' & C' & G); [exact W | lia | lia |].
  split; [exact W'|]. split; [congruence|]. split; [congruence|].
  intros a Ha. destruct (Nat.eq_dec a k) as [-> | Hne].
  - exists J, product. split; [exact HJ|]. split; [exact HP|].
    intros b Hb. rewrite G by lia.
    apply Nat.ltb_lt in Hb. now rewrite Nat.eqb_refl, Hb.
  - destruct (Done a) as (Ja & Pa & HJa & HPa & Ga); [lia|].
    exists Ja, Pa. split; [exact HJa|]. split; [exact HPa|].
    intros b Hb. rewrite G by lia.
    replace (a =? k) with false by (symmetry; apply Nat.eqb_neq; lia).
    cbn [andb]. now apply Ga.
Qed.

Lemma backward_softmax_runs :
  exists grad,
    backward_softmax out prev_grad = Some grad /\
    softmax_rows_done out prev_grad (rows out) grad.
Proof.
  unfold backward_softmax, assert_same_size.
  rewrite shapes_agree. cbn [assert bind].
  apply (for_loopM_inv (softmax_rows_done out prev_grad)).
  - repeat split; auto. intros a Ha. lia.
  - intros k t Hk Ht. now apply backward_softmax_step.
Qed.

(** C2: for [out] and [prev_grad] of the same shape, row [i] of the result
    of [backward_softmax] is the matrix product of the 1 by C row [i] of
    [prev_grad] with the C by C Jacobian that [softmax_jacobian] builds
    from row [i] of [out]. *)
Theorem backward_softmax_row_is_product :
  exists grad,
    backward_softmax out prev_grad = Some grad /\
    rows grad = rows out /\ cols grad = cols out /\
    forall i, i < rows out ->
      exists J product,
        softmax_jacobian (get_row out i) = Some J /\
        rows J = cols out /\ cols J = cols out /\
        mmul (get_row prev_grad i) J = Some product /\
        rows product = 1 /\ cols product = cols out /\
        get_row grad i = product.
Proof.
  pose proof shapes_agree as HS. apply same_size_true in HS.
  destruct HS as [Hr Hc].
  destruct backward_softmax_runs as (grad & Hrun & W & Rg & Cg & Done).
  exists grad. split; [exact Hrun|]. split; [congruence|].
  split; [congruence|].
  intros i Hi.
  destruct (Done i Hi) as (J & product & HJ & HP & G).
  destruct (softmax_row_product i)
    as (J' & product' & HJ' & HP' & WP & RP & CP).
  rewrite HJ in HJ'. injection HJ' as <-.
  rewrite HP in HP'. injection HP' as <-.
  destruct (@softmax_jacobian_runs (get_row out i) eq_refl)
    as (_ & J'' & _ & _ & HJ'' & _ & RJ & CJ & _).
  rewrite HJ in HJ''. injection HJ'' as <-.
  cbn [get_row tabulate cols] in RJ, CJ.
  exists J, product. repeat split; try assumption.
  apply matrix_ext; try apply wf_tabulate; try exact WP.
  - cbn [get_row tabulate rows]. congruence.
  - cbn [get_row tabulate cols]. congruence.
  - cbn [get_row tabulate rows cols]. intros a b Ha Hb.
    change (get (get_row grad i) a b = get product a b).
    unfold get_row. rewrite get_tabulate by assumption.
    replace a with 0 by lia. apply G. congruence.
Qed.

End SoftmaxBackward.

Lemma backward_softmax_row_is_product_witness :
  wf (row3 1 1 1) /\ same_size (row3 1 1 1) (row3 0 0 1) = true /\
  exists grad, backward_softmax (row3 0 0 1) (row3 1 1 1) = Some grad /\
               rows grad = 1 /\ cols grad = 3.
Proof.
  split; [reflexivity | split; [reflexivity|]].
  destruct (@backward_softmax_row_is_product (row3 0 0 1) (row3 1 1 1)
              eq_refl eq_refl) as (grad & Hrun & Hr & Hc & _).
  exists grad. split; [exact Hrun | split; [exact Hr | exact Hc]].
Defined.

(** ** Softmax forward *)

Section SoftmaxForward.

Variable A : Arith.

(** The first inner loop, split into its two components: the matrix with
    the first [n] elements of row [i] exponentiated, and the running
    sum. *)
Lemma softmax_exp_loop (i : nat) (m : Matrix) (s : R) n :
  wf m -> i < rows m -> n <= cols m ->
  for_loop n (fun j (st : Matrix * R) =>
    let activated := fst st in
    let sum := snd st in
    let x := get activated i j in
    let fx := a_exp A x in
    let sum := a_add A sum fx in
    (set activated i j fx, sum)) (m, s)
  = (for_loop n (fun j m => set m i j (a_exp A (get m i j))) m,
     for_loop n (fun j acc => a_add A acc (a_exp A (get m i j))) s).
Proof.
  intros W Hi. cbv zeta.
  induction n as [|n IH]; intros Hn; cbn [for_loop]; [reflexivity|].
  rewrite IH by lia. cbn [fst snd].
  destruct (@row_loop_get (fun _ x => a_exp A x) i m n W Hi)
    as (_ & _ & _ & G); [lia|]. cbv zeta in G.
  rewrite (G i n) by lia.
  rewrite Nat.ltb_irrefl, andb_false_r. reflexivity.
Qed.

(** One iteration of the row loop of forward_softmax, on a row that
    still holds its input values. *)
Lemma softmax_row_step (i : nat) (m : Matrix) :
  wf m -> i < rows m ->
  let sum := row_exp_sum_in A m i in
  let m' := softmax_div_row A i (snd (softmax_exp_row A i (m, 0%R)))
              (fst (softmax_exp_row A i (m, 0%R))) in
  wf m' /\ rows m' = rows m /\ cols m' = cols m /\
  forall a b, a < rows m -> b < cols m ->
    get m' a b
    = if a =? i
      then (if Req_dec_T sum 0 then 0%R
            else a_div A (a_exp A (get m a b)) sum)
      else get m a b.
Proof.
  intros W Hi. unfold softmax_exp_row. cbn [fst].
  rewrite softmax_exp_loop by (try assumption; lia). cbn [fst snd].
  fold (row_exp_sum_in A m i).
  destruct (@row_loop_get (fun _ x => a_exp A x) i m (cols m) W Hi)
    as (W1 & R1 & C1 & G1); [lia|].
  set (m1 := for_loop (cols m) _ m) in *.
  unfold softmax_div_row. rewrite C1.
  destruct (@row_loop_get
              (fun _ x => if Req_dec_T (row_exp_sum_in A m i) 0
                          then 0%R else a_div A x (row_exp_sum_in A m i))
              i m1 (cols m) W1) as (W2 & R2 & C2 & G2); [lia | lia |].
  cbv zeta. split; [exact W2|]. split; [congruence|]. split; [congruence|].
  intros a b Ha Hb. rewrite G2 by lia. rewrite G1 by lia.
  apply Nat.ltb_lt in Hb. rewrite Hb, andb_true_r.
  destruct (a =? i); reflexivity.
Qed.

Lemma forward_softmax_in_runs (M : Matrix) :
  wf M -> softmax_rows_normalised A M (rows M) (forward_softmax_in A M).
Proof.
  intros W. unfold forward_softmax_in. cbv zeta.
  apply (for_loop_inv (softmax_rows_normalised A M)).
  - repeat split; auto.
  - intros k t Hk (Wt & Rt & Ct & G).
    destruct (@softmax_row_step k t Wt) as (W' & R' & C' & G'); [lia|].
    assert (Hsum : row_exp_sum_in A t k = row_exp_sum_in A M k).
    { unfold row_exp_sum_in. rewrite Ct. apply for_loop_ext.
      intros j acc Hj. rewrite G by lia. now rewrite Nat.ltb_irrefl. }
    split; [exact W'|]. split; [congruence|]. split; [congruence|].
    intros a b Ha Hb. rewrite G' by lia. rewrite Hsum.
    destruct (Nat.eqb_spec a k) as [-> | Hne].
    + rewrite ltb_succ_diag.
      rewrite G by lia. now rewrite Nat.ltb_irrefl.
    + rewrite G by lia.
      now rewrite ltb_succ_neq by lia.
Qed.

(** C3: on an R by C matrix, forward_softmax handles every row on its
    own: with [e[j] = exp(x[j])] and [sum] the sum of the [e[j]] of the
    row, the output row is [e[j] / sum], or all 0 when [sum == 0]; the
    exponentials are those of the raw elements (no maximum is subtracted
    first).  This holds for every arithmetic [A] supplying [exp], [+] and
    [/], exact or rounded; [forward_softmax] is the case of
    [exact_arith]. *)
Theorem forward_softmax_rows (M : Matrix) :
  wf M ->
  rows (forward_softmax_in A M) = rows M /\
  cols (forward_softmax_in A M) = cols M /\
  forall i, i < rows M ->
    let e := fun j => a_exp A (get M i j) in
    let sum := for_loop (cols M) (fun j acc => a_add A acc (e j)) 0%R in
    forall j, j < cols M ->
      (sum <> 0%R ->
       get (forward_softmax_in A M) i j = a_div A (e j) sum) /\
      (sum = 0%R -> get (forward_softmax_in A M) i j = 0%R).
Proof.
  intros W. destruct (forward_softmax_in_runs W) as (_ & Rm & Cm & G).
  split; [exact Rm|]. split; [exact Cm|].
  intros i Hi e sum j Hj. rewrite G by assumption.
  apply Nat.ltb_lt in Hi. rewrite Hi.
  fold e. change (row_exp_sum_in A M i) with sum.
  destruct (Req_dec_T sum 0); split; intros; (reflexivity || contradiction).
Qed.

End SoftmaxForward.

(** The guard at work: with an [exp] that underflows, both exponentials of
    the row [-1000, -1000] are 0, their sum is 0, and forward_softmax
    writes 0. *)
Lemma forward_softmax_rows_witness :
  wf (mkMatrix 1 2 [(-1000)%R; (-1000)%R]) /\
  for_loop 2 (fun j acc =>
    a_add underflow_arith acc
      (a_exp underflow_arith
         (get (mkMatrix 1 2 [(-1000)%R; (-1000)%R]) 0 j))) 0%R = 0%R /\
  get (forward_softmax_in underflow_arith
         (mkMatrix 1 2 [(-1000)%R; (-1000)%R])) 0 1 = 0%R.
Proof.
  assert (Hsum :
    for_loop 2 (fun j acc =>
      a_add underflow_arith acc
        (a_exp underflow_arith
           (get (mkMatrix 1 2 [(-1000)%R; (-1000)%R]) 0 j))) 0%R = 0%R).
  { cbv [for_loop a_add a_exp underflow_arith get at_ nth data cols
         Nat.mul Nat.add].
    destruct (Rlt_dec (-1000) (-745)); lra. }
  split; [reflexivity | split; [exact Hsum|]].
  destruct (@forward_softmax_rows underflow_arith
              (mkMatrix 1 2 [(-1000)%R; (-1000)%R]) eq_refl)
    as (_ & _ & G).
  apply (G 0 ltac:(simpl; lia) 1 ltac:(simpl; lia)). exact Hsum.
Defined.

Section SoftmaxForwardExact.

(** forward_softmax in exact arithmetic: the finished matrix. *)
Lemma forward_softmax_runs (M : Matrix) :
  wf M ->
  wf (forward_softmax M) /\
  rows (forward_softmax M) = rows M /\
  cols (forward_softmax M) = cols M /\
  forall a b, a < rows M -> b < cols M ->
    get (forward_softmax M) a b
    = if a <? rows M
      then (if Req_dec_T (row_exp_sum M a) 0 then 0
            else exp (get M a b) / row_exp_sum M a)%R
      else get M a b.
Proof.
  intros W. exact (forward_softmax_in_runs exact_arith W).
Qed.

Lemma sum_upto_div n (g : nat -> R) (s : R) :
  sum_upto n (fun k => (g k / s)%R) = (sum_upto n g / s)%R.
Proof.
  unfold sum_upto. induction n as [|n IH]; simpl.
  - unfold Rdiv. ring.
  - rewrite IH. unfold Rdiv. ring.
Qed.

(** In exact real arithmetic a row of the output of [forward_softmax]
    sums to 1 when the sum of its exponentials is not 0, and is all 0
    otherwise.  This is a statement about the real-number reading of the
    code only: it says nothing about rounded double arithmetic, where
    [exp] can overflow. *)
Lemma forward_softmax_row_sum_exact (M : Matrix) (i : nat) :
  wf M -> i < rows M ->
  (row_exp_sum M i <> 0%R -> row_sum (forward_softmax M) i = 1%R) /\
  (row_exp_sum M i = 0%R ->
   forall j, j < cols M -> get (forward_softmax M) i j = 0%R).
Proof.
  intros W Hi. destruct (forward_softmax_runs W) as (_ & _ & Hc & G).
  assert (Hlt : (i <? rows M) = true) by now apply Nat.ltb_lt.
  split.
  - intros Hne. unfold row_sum. rewrite Hc.
    rewrite (@sum_upto_ext (cols M) _
               (fun j => (exp (get M i j) / row_exp_sum M i)%R)).
    + rewrite sum_upto_div. fold (row_exp_sum M i). now field.
    + intros j Hj. rewrite G, Hlt by assumption.
      now destruct (Req_dec_T (row_exp_sum M i) 0).
  - intros H0 j Hj. rewrite G, Hlt by assumption.
    now destruct (Req_dec_T (row_exp_sum M i) 0).
Qed.

End SoftmaxForwardExact.

(** ** Shapes *)

Section Shapes.

Lemma softmax_exp_row_shape (A : Arith) (i : nat) (st : Matrix * R) :
  rows (fst (softmax_exp_row A i st)) = rows (fst st) /\
  cols (fst (softmax_exp_row A i st)) = cols (fst st).
Proof.
  unfold softmax_exp_row.
  apply (for_loop_inv
           (fun _ t => rows (fst t) = rows (fst st) /\
                       cols (fst t) = cols (fst st))).
  - auto.
  - intros k t _ H. exact H.
Qed.

Lemma softmax_div_row_shape (A : Arith) (i : nat) (sum : R) (m : Matrix) :
  rows (softmax_div_row A i sum m) = rows m /\
  cols (softmax_div_row A i sum m) = cols m.
Proof.
  unfold softmax_div_row.
  apply (set_loop_shape
           (fun j m => let x := get m i j in
                       if Req_dec_T sum 0 then 0%R else a_div A x sum)).
Qed.

Lemma forward_softmax_shape (M : Matrix) :
  rows (forward_softmax M) = rows M /\ cols (forward_softmax M) = cols M.
Proof.
  unfold forward_softmax, forward_softmax_in. cbv zeta.
  apply (for_loop_inv (fun _ t => rows t = rows M /\ cols t = cols M)).
  - auto.
  - intros k t _ [Hr Hc].
    destruct (softmax_div_row_shape exact_arith k
                (snd (softmax_exp_row exact_arith k (t, 0%R)))
                (fst (softmax_exp_row exact_arith k (t, 0%R)))) as [-> ->].
    destruct (softmax_exp_row_shape exact_arith k (t, 0%R)) as [-> ->].
    cbn [fst]. auto.
Qed.

Lemma backward_softmax_shape (out grad : Matrix) :
  same_size grad out = true ->
  exists G, backward_softmax out grad = Some G /\
            rows G = rows out /\ cols G = cols out.
Proof.
  intros HS. pose proof HS as HS'. apply same_size_true in HS'.
  destruct HS' as [Hr Hc].
  unfold backward_softmax, assert_same_size. rewrite HS.
  cbn [assert bind].
  apply (for_loopM_inv (fun _ t => rows t = rows out /\ cols t = cols out)).
  - auto.
  - intros k t _ [Rt Ct].
    destruct (@softmax_row_product out grad HS k)
      as (J & product & HJ & HP & _).
    rewrite HJ. cbn [bind]. rewrite HP. cbn [bind].
    eexists. split; [reflexivity|].
    destruct (set_loop_shape (fun j _ => get product 0 j) k (cols out) t)
      as [-> ->].
    auto.
Qed.

(** C6: for every activation kind, [forward_activate_matrix] returns a
    matrix with the rows and columns of its input, and for [out] and
    [grad] of the same shape [backward_activate_matrix] returns a matrix
    with the rows and columns of [out]. *)
Theorem activate_preserves_shape (a : Activation) (M out grad : Matrix) :
  same_size grad out = true ->
  (exists A, forward_activate_matrix M a = Some A /\
             rows A = rows M /\ cols A = cols M) /\
  (exists G, backward_activate_matrix out grad a = Some G /\
             rows G = rows out /\ cols G = cols out).
Proof.
  intros HS. pose proof HS as HS'. apply same_size_true in HS'.
  destruct HS' as [Hr Hc].
  split.
  - destruct a; cbn [forward_activate_matrix Activation_eqb];
      eexists; (split; [reflexivity|]).
    + auto.
    + apply backward_loop_shape.
    + apply backward_loop_shape.
    + apply backward_loop_shape.
    + apply backward_loop_shape.
    + apply forward_softmax_shape.
  - destruct a; cbn [backward_activate_matrix Activation_eqb];
      try apply (@backward_softmax_shape out grad HS);
      unfold backward_linear, backward_logistic, backward_tanh,
        backward_relu, backward_lrelu, assert_same_size;
      rewrite HS; cbn [assert bind];
      eexists; (split; [reflexivity|]);
      rewrite <- Hr, <- Hc; try apply backward_loop_shape.
    auto.
Qed.

Lemma activate_preserves_shape_witness :
  same_size (row3 1 1 1) (row3 0 0 2) = true /\
  (exists A, forward_activate_matrix (row3 (-2) 0 2) SOFTMAX = Some A /\
             rows A = 1 /\ cols A = 3) /\
  (exists G, backward_activate_matrix (row3 0 0 2) (row3 1 1 1) SOFTMAX
             = Some G /\ rows G = 1 /\ cols G = 3).
Proof.
  split; [reflexivity|].
  apply (@activate_preserves_shape SOFTMAX (row3 (-2) 0 2)
           (row3 0 0 2) (row3 1 1 1)).
  reflexivity.
Defined.

End Shapes.

(** ** Contract violations *)

Section Contracts.

Lemma same_size_false (a b : Matrix) :
  rows a <> rows b \/ cols a <> cols b -> same_size a b = false.
Proof.
  intros H. unfold same_size. apply andb_false_iff.
  destruct H as [H | H]; [left | right]; now apply Nat.eqb_neq.
Qed.

(** C7: every backward function aborts, returning no matrix, when the
    activated output and the incoming gradient differ in dimensions, and
    [softmax_jacobian] aborts when its input does not have exactly one
    row. *)
Theorem contract_violations_abort
        (out prev_grad out_row : Matrix) (a : Activation) :
  (rows prev_grad <> rows out \/ cols prev_grad <> cols out ->
   backward_linear out prev_grad = None /\
   backward_logistic out prev_grad = None /\
   backward_tanh out prev_grad = None /\
   backward_relu out prev_grad = None /\
   backward_lrelu out prev_grad = None /\
   backward_softmax out prev_grad = None /\
   backward_activate_matrix out prev_grad a = None) /\
  (rows out_row <> 1 -> softmax_jacobian out_row = None).
Proof.
  split.
  - intros H. apply same_size_false in H.
    assert (Hl : backward_linear out prev_grad = None)
      by (unfold backward_linear, assert_same_size; now rewrite H).
    assert (Hg : backward_logistic out prev_grad = None)
      by (unfold backward_logistic, assert_same_size; now rewrite H).
    assert (Ht : backward_tanh out prev_grad = None)
      by (unfold backward_tanh, assert_same_size; now rewrite H).
    assert (Hr : backward_relu out prev_grad = None)
      by (unfold backward_relu, assert_same_size; now rewrite H).
    assert (Hlr : backward_lrelu out prev_grad = None)
      by (unfold backward_lrelu, assert_same_size; now rewrite H).
    assert (Hs : backward_softmax out prev_grad = None)
      by (unfold backward_softmax, assert_same_size; now rewrite H).
    repeat split; try assumption.
    destruct a; cbn [backward_activate_matrix Activation_eqb]; assumption.
  - intros H. unfold softmax_jacobian.
    apply Nat.eqb_neq in H. now rewrite H.
Qed.

Lemma contract_violations_abort_witness :
  backward_activate_matrix (mkMatrix 1 2 [1%R; 2%R]) (row3 1 1 1) RELU = None
  /\ softmax_jacobian (mkMatrix 2 1 [1%R; 2%R]) = None.
Proof.
  destruct (@contract_violations_abort (mkMatrix 1 2 [1%R; 2%R])
              (row3 1 1 1) (mkMatrix 2 1 [1%R; 2%R]) RELU) as [Hb Hj].
  split.
  - apply Hb. right. simpl. lia.
  - apply Hj. simpl. lia.
Defined.

End Contracts.

(** ** Elementwise forward passes *)

Section ElementwiseForward.

(** The loop of an elementwise forward pass applying [f]. *)
Lemma forward_loop_get (f : R -> R) (M : Matrix) i j :
  wf M -> i < rows M -> j < cols M ->
  get (for_loop (rows M * cols M)
         (fun k activated => set_at activated k (f (at_ activated k))) M) i j
  = f (get M i j).
Proof.
  intros W Hi Hj.
  now rewrite (flat_loop_get (fun _ x => f x)) by assumption.
Qed.

(** Each elementwise forward function applies its scalar function to
    every element, position by position: [1 / (1 + exp(-x))] for Logistic,
    [tanh x] for Tanh, [x] when [x > 0] and [0] otherwise for ReLU, [x]
    when [x > 0] and [0.01 * x] otherwise for LeakyReLU. *)
Theorem forward_elementwise_values (M : Matrix) i j :
  wf M -> i < rows M -> j < cols M ->
  get (forward_logistic M) i j = (1 / (1 + exp (-1 * get M i j)))%R /\
  get (forward_tanh M) i j = tanh (get M i j) /\
  get (forward_relu M) i j
  = (if Rlt_dec 0 (get M i j) then get M i j else 0)%R /\
  get (forward_lrelu M) i j
  = (if Rlt_dec 0 (get M i j) then get M i j else 0.01 * get M i j)%R.
Proof.
  intros W Hi Hj.
  unfold forward_logistic, forward_tanh, forward_relu, forward_lrelu.
  cbv zeta. repeat split.
  - exact (forward_loop_get (fun x => 1 / (1 + exp (-1 * x)))%R W Hi Hj).
  - exact (forward_loop_get tanh W Hi Hj).
  - exact (forward_loop_get (fun x => if Rlt_dec 0 x then x else 0)%R
             W Hi Hj).
  - exact (forward_loop_get
             (fun x => if Rlt_dec 0 x then x else 0.01 * x)%R W Hi Hj).
Qed.

Lemma forward_elementwise_values_witness :
  wf (row3 (-2) 0 2) /\
  get (forward_tanh (row3 (-2) 0 2)) 0 2 = tanh (get (row3 (-2) 0 2) 0 2).
Proof.
  split; [reflexivity|].
  apply (@forward_elementwise_values (row3 (-2) 0 2) 0 2);
    [reflexivity | simpl; lia | simpl; lia].
Defined.

End ElementwiseForward.

(** ** Ranges of the elementwise activations *)

Section Ranges.

Lemma logistic_bounds (x : R) :
  (0 < 1 / (1 + exp (-1 * x)) < 1)%R.
Proof.
  pose proof (exp_pos (-1 * x)) as He. split.
  - apply Rdiv_lt_0_compat; lra.
  - apply Rmult_lt_reg_r with (1 + exp (-1 * x))%R; [lra|].
    unfold Rdiv. rewrite Rmult_assoc, Rinv_l; lra.
Qed.

Lemma tanh_bounds (x : R) : (-1 < tanh x < 1)%R.
Proof.
  unfold tanh, sinh, cosh.
  pose proof (exp_pos x) as Ha. pose proof (exp_pos (- x)) as Hb.
  set (a := exp x) in *. set (b := exp (- x)) in *.
  assert (Hc : (0 < (a + b) / 2)%R) by lra.
  split.
  - apply Rmult_lt_reg_r with ((a + b) / 2)%R; [exact Hc|].
    unfold Rdiv at 2. rewrite Rmult_assoc, Rinv_l; lra.
  - apply Rmult_lt_reg_r with ((a + b) / 2)%R; [exact Hc|].
    unfold Rdiv at 1. rewrite Rmult_assoc, Rinv_l; lra.
Qed.

(** Every element of the output of [forward_logistic] lies between 0 and
    1, every element of the output of [forward_tanh] between -1 and 1, and
    every element of the output of [forward_relu] is at least 0. *)
Theorem forward_outputs_bounded (M : Matrix) i j :
  wf M -> i < rows M -> j < cols M ->
  (0 <= get (forward_logistic M) i j <= 1)%R /\
  (-1 <= get (forward_tanh M) i j <= 1)%R /\
  (0 <= get (forward_relu M) i j)%R.
Proof.
  intros W Hi Hj.
  unfold forward_logistic, forward_tanh, forward_relu. cbv zeta.
  rewrite (forward_loop_get (fun x => 1 / (1 + exp (-1 * x)))%R W Hi Hj).
  rewrite (forward_loop_get tanh W Hi Hj).
  rewrite (forward_loop_get (fun x => if Rlt_dec 0 x then x else 0)%R
             W Hi Hj).
  pose proof (logistic_bounds (get M i j)).
  pose proof (tanh_bounds (get M i j)).
  repeat split; try lra.
  destruct (Rlt_dec 0 (get M i j)); lra.
Qed.

Lemma forward_outputs_bounded_witness :
  wf (row3 (-2) 0 2) /\
  (0 <= get (forward_relu (row3 (-2) 0 2)) 0 0)%R.
Proof.
  split; [reflexivity|].
  apply (@forward_outputs_bounded (row3 (-2) 0 2) 0 0);
    [reflexivity | simpl; lia | simpl; lia].
Defined.

End Ranges.

(** ** ReLU pipeline *)

Section Pipelines.

(** Two matrices with the same dimensions and the same buffer are the
    same matrix. *)
Lemma matrix_eq_at (a b : Matrix) :
  rows a = rows b -> cols a = cols b ->
  length (data a) = length (data b) ->
  (forall k, at_ a k = at_ b k) -> a = b.
Proof.
  destruct a as [ra ca da], b as [rb cb db]; unfold at_; simpl.
  intros -> -> Hl H. f_equal.
  apply (nth_ext _ _ 0%R 0%R); [exact Hl | intros k _; apply H].
Qed.

(** [forward_relu] is idempotent: a second pass changes nothing. *)
Theorem forward_relu_idempotent (M : Matrix) :
  forward_relu (forward_relu M) = forward_relu M.
Proof.
  destruct (forward_relu_shape M) as [Hr Hc].
  assert (Hl : length (data (forward_relu M)) = length (data M))
    by apply (flat_loop_shape
                (fun _ x => if Rlt_dec 0 x then x else 0%R)).
  apply matrix_eq_at.
  - apply forward_relu_shape.
  - apply forward_relu_shape.
  - apply (flat_loop_shape (fun _ x => if Rlt_dec 0 x then x else 0%R)).
  - intros k. unfold forward_relu at 1. cbv zeta.
    rewrite (flat_loop_at (fun _ x => if Rlt_dec 0 x then x else 0%R)).
    rewrite Hr, Hc, Hl.
    destruct ((k <? rows M * cols M) && (k <? length (data M))) eqn:E;
      [|reflexivity].
    unfold forward_relu. cbv zeta.
    rewrite (flat_loop_at (fun _ x => if Rlt_dec 0 x then x else 0%R)).
    rewrite E.
    destruct (Rlt_dec 0 (at_ M k)) as [Hp | Hn].
    + destruct (Rlt_dec 0 (at_ M k)); [reflexivity | contradiction].
    + destruct (Rlt_dec 0 0); [lra | reflexivity].
Qed.

End Pipelines.

(** ** Finite sums *)

Section Sums.

Lemma sum_upto_S n (g : nat -> R) :
  sum_upto (S n) g = (sum_upto n g + g n)%R.
Proof. reflexivity. Qed.

Lemma sum_upto_minus n (g h : nat -> R) :
  sum_upto n (fun k => (g k - h k)%R) = (sum_upto n g - sum_upto n h)%R.
Proof.
  induction n as [|n IH].
  - unfold sum_upto; simpl. ring.
  - rewrite !sum_upto_S, IH. ring.
Qed.

Lemma sum_upto_scal n (c : R) (g : nat -> R) :
  sum_upto n (fun k => (c * g k)%R) = (c * sum_upto n g)%R.
Proof.
  induction n as [|n IH].
  - unfold sum_upto; simpl. ring.
  - rewrite !sum_upto_S, IH. ring.
Qed.

(** A sum with a single non-zero term, at position [i]. *)
Lemma sum_upto_pick n i (g : nat -> R) :
  sum_upto n (fun k => if i =? k then g k else 0%R)
  = if i <? n then g i else 0%R.
Proof.
  induction n as [|n IH].
  - reflexivity.
  - rewrite sum_upto_S, IH.
    destruct (Nat.eqb_spec i n) as [-> | Hne].
    + rewrite Nat.ltb_irrefl, ltb_succ_diag. ring.
    + rewrite (ltb_succ_neq Hne). ring.
Qed.

End Sums.

(** ** The Jacobian and the gradient in closed form *)

Section ClosedForms.

Lemma mmul_get (a b p : Matrix) i j :
  mmul a b = Some p -> i < rows a -> j < cols b ->
  get p i j = sum_upto (cols a) (fun k => (get a i k * get b k j)%R).
Proof.
  unfold mmul. destruct (cols a =? rows b); cbn [assert bind]; [|discriminate].
  intros H Hi Hj. injection H as <-. now rewrite get_tabulate.
Qed.

(** Each row of the Jacobian of a one-row matrix [r] sums to
    [r[i] * (1 - sum of r)]: when [r] sums to 1, as a softmax output does,
    every row of the Jacobian sums to 0. *)
Theorem softmax_jacobian_row_sums (r : Matrix) :
  rows r = 1 ->
  exists J,
    softmax_jacobian r = Some J /\
    (forall i, i < cols r ->
       row_sum J i = (get r 0 i * (1 - row_sum r 0))%R) /\
    (row_sum r 0 = 1%R -> forall i, i < cols r -> row_sum J i = 0%R).
Proof.
  intros H1.
  destruct (softmax_jacobian_runs r H1)
    as (outer & J & _ & _ & HJ & _ & _ & CJ & G).
  assert (Hsum : forall i, i < cols r ->
            row_sum J i = (get r 0 i * (1 - row_sum r 0))%R).
  { intros i Hi. unfold row_sum. rewrite CJ.
    rewrite (@sum_upto_ext (cols r) _
               (fun j => ((if i =? j then get r 0 j else 0)
                          - get r 0 i * get r 0 j)%R)).
    - rewrite sum_upto_minus, sum_upto_pick, sum_upto_scal.
      apply Nat.ltb_lt in Hi. rewrite Hi.
      change (sum_upto (cols r) (fun j => get r 0 j))
        with (sum_upto (cols r) (get r 0)).
      ring.
    - intros j Hj. rewrite (G i j Hi Hj). ring. }
  exists J. split; [exact HJ|]. split; [exact Hsum|].
  intros Hone i Hi. rewrite (Hsum i Hi), Hone. ring.
Qed.

Lemma softmax_jacobian_row_sums_witness :
  rows (row3 1 0 0) = 1 /\
  exists J, softmax_jacobian (row3 1 0 0) = Some J /\ row_sum J 1 = 0%R.
Proof.
  split; [reflexivity|].
  destruct (@softmax_jacobian_row_sums (row3 1 0 0) eq_refl)
    as (J & HJ & _ & Hzero).
  exists J. split; [exact HJ|]. apply Hzero.
  - unfold row_sum, sum_upto. simpl. unfold get, at_. simpl. lra.
  - simpl. lia.
Defined.

(** The entries of the result of [backward_softmax], from the run of the
    code. *)
Lemma backward_softmax_entries (out prev_grad : Matrix) :
  wf prev_grad -> same_size prev_grad out = true ->
  exists grad,
    backward_softmax out prev_grad = Some grad /\
    wf grad /\ rows grad = rows out /\ cols grad = cols out /\
    forall i j, i < rows out -> j < cols out ->
      get grad i j
      = (get out i j *
         (get prev_grad i j
          - sum_upto (cols out)
              (fun k => get prev_grad i k * get out i k)))%R.
Proof.
  intros W HS. pose proof HS as HS'. apply same_size_true in HS'.
  destruct HS' as [Hr Hc].
  destruct (@backward_softmax_runs out prev_grad W HS)
    as (grad & Hrun & Wg & Rg & Cg & Done).
  exists grad. split; [exact Hrun|]. split; [exact Wg|].
  split; [congruence|]. split; [congruence|].
  intros i j Hi Hj.
  destruct (Done i Hi) as (J & product & HJ & HP & G).
  rewrite (G j Hj).
  destruct (@softmax_jacobian_runs (get_row out i) eq_refl)
    as (_ & J' & _ & _ & HJ' & _ & _ & CJ & GJ).
  rewrite HJ in HJ'. injection HJ' as <-.
  cbn [get_row tabulate cols] in CJ, GJ.
  rewrite (mmul_get _ _ HP) by (cbn [get_row tabulate rows]; lia).
  cbn [get_row tabulate cols]. rewrite Hc.
  rewrite (@sum_upto_ext (cols out) _
             (fun k => ((if j =? k
                         then get prev_grad i k * get out i k else 0)
                        - get out i j
                          * (get prev_grad i k * get out i k))%R)).
  - rewrite sum_upto_minus, sum_upto_pick, sum_upto_scal.
    apply Nat.ltb_lt in Hj. rewrite Hj. ring.
  - intros k Hk. rewrite (GJ k j Hk Hj).
    change (tabulate 1 (cols prev_grad) (fun _ b => get prev_grad i b))
      with (get_row prev_grad i).
    change (tabulate 1 (cols out) (fun _ b => get out i b))
      with (get_row out i).
    unfold get_row. rewrite !get_tabulate by lia.
    rewrite (Nat.eqb_sym j k).
    destruct (k =? j) eqn:E; [apply Nat.eqb_eq in E; subst k|]; ring.
Qed.

(** For [out] and [prev_grad] of the same shape, [backward_softmax]
    computes [grad[i][j] = out[i][j] * (prev_grad[i][j] - s_i)], with
    [s_i] the sum over k of [prev_grad[i][k] * out[i][k]]. *)
Theorem backward_softmax_closed_form (out prev_grad : Matrix) :
  wf prev_grad -> same_size prev_grad out = true ->
  exists grad,
    backward_softmax out prev_grad = Some grad /\
    forall i j, i < rows out -> j < cols out ->
      get grad i j
      = (get out i j *
         (get prev_grad i j
          - sum_upto (cols out)
              (fun k => get prev_grad i k * get out i k)))%R.
Proof.
  intros W HS.
  destruct (@backward_softmax_entries out prev_grad W HS)
    as (grad & Hrun & _ & _ & _ & G).
  exists grad. split; [exact Hrun | exact G].
Qed.

Lemma backward_softmax_closed_form_witness :
  wf (row3 1 1 1) /\ same_size (row3 1 1 1) (row3 1 0 0) = true /\
  exists grad, backward_softmax (row3 1 0 0) (row3 1 1 1) = Some grad.
Proof.
  split; [reflexivity | split; [reflexivity|]].
  destruct (@backward_softmax_closed_form (row3 1 0 0) (row3 1 1 1)
              eq_refl eq_refl) as (grad & Hrun & _).
  exists grad. exact Hrun.
Defined.

(** When row [i] of [out] sums to 1, as a softmax output does, row [i] of
    the gradient returned by [backward_softmax] sums to 0. *)
Theorem backward_softmax_gradient_sums_to_zero
        (out prev_grad : Matrix) (i : nat) :
  wf prev_grad -> same_size prev_grad out = true ->
  i < rows out -> row_sum out i = 1%R ->
  exists grad,
    backward_softmax out prev_grad = Some grad /\ row_sum grad i = 0%R.
Proof.
  intros W HS Hi Hone.
  destruct (@backward_softmax_entries out prev_grad W HS)
    as (grad & Hrun & _ & _ & Cg & G).
  exists grad. split; [exact Hrun|].
  unfold row_sum in *. rewrite Cg.
  set (s := sum_upto (cols out)
              (fun k => (get prev_grad i k * get out i k)%R)) in *.
  rewrite (@sum_upto_ext (cols out) _
             (fun j => (get prev_grad i j * get out i j
                        - s * get out i j)%R)).
  - change (sum_upto (cols out) (get out i) = 1%R) in Hone.
    rewrite sum_upto_minus, sum_upto_scal, Hone. fold s. ring.
  - intros j Hj. rewrite (G i j Hi Hj). fold s. ring.
Qed.

Lemma backward_softmax_gradient_sums_to_zero_witness :
  wf (row3 1 2 3) /\ same_size (row3 1 2 3) (row3 1 0 0) = true /\
  exists grad,
    backward_softmax (row3 1 0 0) (row3 1 2 3) = Some grad /\
    row_sum grad 0 = 0%R.
Proof.
  split; [reflexivity | split; [reflexivity|]].
  apply (@backward_softmax_gradient_sums_to_zero
           (row3 1 0 0) (row3 1 2 3) 0); try reflexivity.
  - simpl. lia.
  - unfold row_sum, sum_upto. simpl. unfold get, at_. simpl. lra.
Defined.

End ClosedForms.

(** ** Rows of softmax are independent *)

Section RowLocality.

Lemma row_exp_sum_get_row (M : Matrix) i :
  row_exp_sum (get_row M i) 0 = row_exp_sum M i.
Proof.
  unfold row_exp_sum. cbn [get_row tabulate cols].
  apply sum_upto_ext. intros j Hj.
  change (tabulate 1 (cols M) (fun _ b => get M i b)) with (get_row M i).
  unfold get_row. now rewrite get_tabulate by lia.
Qed.

(** Row [i] of [forward_softmax M] is [forward_softmax] of row [i] of [M]
    alone: no row of the output depends on another row of the input. *)
Theorem forward_softmax_row_local (M : Matrix) (i : nat) :
  wf M -> i < rows M ->
  get_row (forward_softmax M) i = forward_softmax (get_row M i).
Proof.
  intros W Hi.
  destruct (forward_softmax_runs W) as (_ & _ & Cm & G).
  destruct (@forward_softmax_runs (get_row M i) (wf_tabulate _ _ _))
    as (Wr & Rr & Cr & Gr).
  cbn [get_row tabulate rows cols] in Rr, Cr, Gr.
  apply matrix_ext; try apply wf_tabulate; try exact Wr.
  - cbn [get_row tabulate rows]. congruence.
  - cbn [get_row tabulate cols]. congruence.
  - cbn [get_row tabulate rows cols]. rewrite Cm. intros a b Ha Hb.
    change (get (get_row (forward_softmax M) i) a b
            = get (forward_softmax (get_row M i)) a b).
    replace a with 0 by lia.
    unfold get_row at 1. rewrite get_tabulate by lia.
    rewrite (G i b Hi Hb).
    change (tabulate 1 (cols M) (fun _ j => get M i j)) with (get_row M i)
      in Gr.
    rewrite (Gr 0 b) by lia.
    apply Nat.ltb_lt in Hi. rewrite Hi. cbn [Nat.ltb Nat.leb].
    rewrite row_exp_sum_get_row.
    unfold get_row at 1. now rewrite get_tabulate by lia.
Qed.

Lemma forward_softmax_row_local_witness :
  wf (row3 1 2 3) /\
  get_row (forward_softmax (row3 1 2 3)) 0
  = forward_softmax (get_row (row3 1 2 3) 0).
Proof.
  split; [reflexivity|].
  apply (@forward_softmax_row_local (row3 1 2 3) 0);
    [reflexivity | simpl; lia].
Defined.

Lemma get_get_row (M : Matrix) i j :
  j < cols M -> get (get_row M i) 0 j = get M i j.
Proof. intros Hj. unfold get_row. now rewrite get_tabulate by lia. Qed.

(** Row [i] of [backward_softmax out prev_grad] is [backward_softmax] of
    row [i] of [out] and row [i] of [prev_grad] alone. *)
Theorem backward_softmax_row_local (out prev_grad : Matrix) (i : nat) :
  wf prev_grad -> same_size prev_grad out = true -> i < rows out ->
  exists grad row_grad,
    backward_softmax out prev_grad = Some grad /\
    backward_softmax (get_row out i) (get_row prev_grad i) = Some row_grad /\
    get_row grad i = row_grad.
Proof.
  intros W HS Hi. pose proof HS as HS'. apply same_size_true in HS'.
  destruct HS' as [Hr Hc].
  assert (HSr : same_size (get_row prev_grad i) (get_row out i) = true).
  { apply same_size_true. cbn [get_row tabulate rows cols]. auto. }
  destruct (@backward_softmax_entries out prev_grad W HS)
    as (grad & Hrun & Wg & Rg & Cg & G).
  destruct (@backward_softmax_entries (get_row out i) (get_row prev_grad i)
              (wf_tabulate _ _ _) HSr)
    as (row_grad & Hrun' & Wg' & Rg' & Cg' & G').
  cbn [get_row tabulate rows cols] in Rg', Cg'.
  exists grad, row_grad. split; [exact Hrun|]. split; [exact Hrun'|].
  apply matrix_ext; try apply wf_tabulate; try exact Wg'.
  - cbn [get_row tabulate rows]. congruence.
  - cbn [get_row tabulate cols]. congruence.
  - cbn [get_row tabulate rows cols]. rewrite Cg. intros a b Ha Hb.
    change (get (get_row grad i) a b = get row_grad a b).
    replace a with 0 by lia.
    rewrite get_get_row by lia. rewrite (G i b Hi Hb).
    rewrite G' by (cbn [get_row tabulate rows cols]; lia).
    cbn [get_row tabulate cols].
    change (tabulate 1 (cols out) (fun _ j => get out i j))
      with (get_row out i).
    change (tabulate 1 (cols prev_grad) (fun _ j => get prev_grad i j))
      with (get_row prev_grad i).
    rewrite !get_get_row by lia. f_equal. f_equal.
    apply sum_upto_ext. intros k Hk. now rewrite !get_get_row by lia.
Qed.

Lemma backward_softmax_row_local_witness :
  wf (row3 1 2 3) /\ same_size (row3 1 2 3) (row3 1 0 0) = true /\
  exists grad row_grad,
    backward_softmax (row3 1 0 0) (row3 1 2 3) = Some grad /\
    backward_softmax (get_row (row3 1 0 0) 0) (get_row (row3 1 2 3) 0)
    = Some row_grad /\
    get_row grad 0 = row_grad.
Proof.
  split; [reflexivity | split; [reflexivity|]].
  apply (@backward_softmax_row_local (row3 1 0 0) (row3 1 2 3) 0);
    [reflexivity | reflexivity | simpl; lia].
Defined.

End RowLocality.

(** ** The buffer invariant *)

Section BufferInvariant.

Lemma elementwise_loop_wf (G : nat -> Matrix -> R) n (m : Matrix) :
  wf m -> wf (for_loop n (fun k grad => set_at grad k (G k grad)) m).
Proof.
  intros W. apply (for_loop_inv (fun _ t => wf t)); [exact W|].
  intros k t _ Wt. now apply wf_set_at.
Qed.

(** The dispatchers keep the invariant of [Matrix]: on a matrix whose
    buffer holds [rows * cols] elements, [forward_activate_matrix] returns
    such a matrix, and so does [backward_activate_matrix] on a gradient of
    the shape of [out]. *)
Theorem activate_preserves_wf (a : Activation) (M out grad : Matrix) :
  wf M -> wf grad -> same_size grad out = true ->
  (exists A, forward_activate_matrix M a = Some A /\ wf A) /\
  (exists G, backward_activate_matrix out grad a = Some G /\ wf G).
Proof.
  intros WM Wg HS. split.
  - destruct a; cbn [forward_activate_matrix Activation_eqb];
      eexists; (split; [reflexivity|]);
      try (now apply elementwise_loop_wf).
    + exact WM.
    + now destruct (forward_softmax_runs WM) as (W' & _).
  - destruct a; cbn [backward_activate_matrix Activation_eqb].
    6: { destruct (@backward_softmax_runs out grad Wg HS)
           as (G & Hrun & WG & _).
         exists G. split; [exact Hrun | exact WG]. }
    all: unfold backward_linear, backward_logistic, backward_tanh,
           backward_relu, backward_lrelu, assert_same_size;
         rewrite HS; cbn [assert bind];
         eexists; (split; [reflexivity|]);
         try (now apply elementwise_loop_wf).
    exact Wg.
Qed.

Lemma activate_preserves_wf_witness :
  wf (row3 1 2 3) /\ wf (row3 1 1 1) /\
  same_size (row3 1 1 1) (row3 0 0 1) = true /\
  exists A, forward_activate_matrix (row3 1 2 3) SOFTMAX = Some A /\ wf A.
Proof.
  split; [reflexivity | split; [reflexivity | split; [reflexivity|]]].
  apply (@activate_preserves_wf SOFTMAX (row3 1 2 3) (row3 0 0 1)
           (row3 1 1 1)); reflexivity.
Defined.

End BufferInvariant.

(** ** Empty matrices *)

Section Empty.

Lemma empty_size (M : Matrix) :
  rows M = 0 \/ cols M = 0 -> rows M * cols M = 0.
Proof. intros [-> | ->]; lia. Qed.

Lemma forward_softmax_empty (M : Matrix) :
  rows M = 0 \/ cols M = 0 -> forward_softmax M = M.
Proof.
  intros H. unfold forward_softmax, forward_softmax_in. cbv zeta.
  apply (for_loop_inv (fun _ t => t = M)); [reflexivity|].
  intros k t Hk ->. destruct H as [H | H]; [lia|].
  unfold softmax_exp_row, softmax_div_row. cbn [fst].
  rewrite H. cbn [for_loop fst snd]. rewrite H. reflexivity.
Qed.

Lemma backward_softmax_empty (out grad : Matrix) :
  rows out = 0 \/ cols out = 0 -> same_size grad out = true ->
  backward_softmax out grad = Some grad.
Proof.
  intros H HS. unfold backward_softmax, assert_same_size.
  rewrite HS. cbn [assert bind].
  destruct (@for_loopM_inv Matrix (fun _ t => t = grad)
              (fun i grad0 =>
                 jacobian <- softmax_jacobian (get_row out i) ;;
                 let row_grad := get_row grad i in
                 product <- mmul row_grad jacobian ;;
                 Some (for_loop (cols out) (fun j grad1 =>
                         set grad1 i j (get product 0 j)) grad0))
              (rows out) grad eq_refl) as (g' & Hrun & ->).
  - intros k t Hk ->. destruct H as [H | H]; [lia|].
    destruct (@softmax_row_product out grad HS k)
      as (J & product & HJ & HP & _).
    rewrite HJ. cbn [bind]. rewrite HP. cbn [bind].
    rewrite H. cbn [for_loop]. now exists grad.
  - exact Hrun.
Qed.

(** On a matrix with no rows or no columns every activation is the
    identity: [forward_activate_matrix] returns its input and
    [backward_activate_matrix] returns the incoming gradient. *)
Theorem activate_empty (a : Activation) (M grad : Matrix) :
  rows M = 0 \/ cols M = 0 -> same_size grad M = true ->
  forward_activate_matrix M a = Some M /\
  backward_activate_matrix M grad a = Some grad.
Proof.
  intros H HS.
  pose proof (@empty_size M H) as Hn.
  assert (Hg : rows grad * cols grad = 0).
  { apply same_size_true in HS. destruct HS as [-> ->]. exact Hn. }
  split.
  - destruct a; cbn [forward_activate_matrix Activation_eqb];
      unfold forward_linear, forward_logistic, forward_tanh, forward_relu,
        forward_lrelu; cbv zeta; try rewrite Hn; try reflexivity.
    now rewrite forward_softmax_empty.
  - destruct a; cbn [backward_activate_matrix Activation_eqb];
      try (now apply backward_softmax_empty);
      unfold backward_linear, backward_logistic, backward_tanh,
        backward_relu, backward_lrelu, assert_same_size;
      rewrite HS; cbn [assert bind]; cbv zeta; try rewrite Hg; reflexivity.
Qed.

Lemma activate_empty_witness :
  same_size (mkMatrix 2 0 []) (mkMatrix 2 0 []) = true /\
  forward_activate_matrix (mkMatrix 2 0 []) SOFTMAX = Some (mkMatrix 2 0 [])
  /\ backward_activate_matrix (mkMatrix 2 0 []) (mkMatrix 2 0 []) SOFTMAX
     = Some (mkMatrix 2 0 []).
Proof.
  split; [reflexivity|].
  apply (@activate_empty SOFTMAX (mkMatrix 2 0 []) (mkMatrix 2 0 []));
    [right; reflexivity | reflexivity].
Defined.

End Empty.
